(** * ChConn: a net.Conn over an SSH channel (api/utils/sshutils/chconn.go)

    The Go file wraps an [ssh.Channel] and its parent [ssh.Conn] into a
    [net.Conn].  Every method is a short sequence of calls on four outside
    objects: the channel, the parent connection and the two ends of a
    [net.Pipe].  The embedding keeps that shape: a method is a program that
    issues calls and receives their answers; an environment (a handler) says
    what the outside objects answer.  The theorems about [Close], the
    deadline setters and [Write] hold for every environment. *)

From Stdlib Require Import List String ZArith Bool Lia Arith PeanoNat.
From Stdlib.Strings Require Import Byte.
Import ListNotations.

Set Implicit Arguments.
Set Warnings "-register-all".

(** ** Data *)

(** Go's [error] interface: [nil] or a value.  Two kinds of values matter
    here: a leaf error carrying a message and the aggregate built by
    [trace.NewAggregate]. *)
Inductive goerror : Type :=
| ErrorString (msg : string)
| Aggregate (errs : list goerror).

Definition error : Type := option goerror.

Definition isNil (err : error) : bool :=
  match err with
  | None => true
  | Some _ => false
  end.

(** [time.Time], as nanoseconds; the zero time is [0]. *)
Definition Time : Type := Z.

(** [net.Addr] *)
Definition Addr : Type := string.

(** Handles of the outside objects. *)
Variant sshChannel : Type := SshChannel (id : nat).
Variant sshConn : Type := SshConn (id : nat).
Variant netConn : Type := NetConn (id : nat).

(** [sync.Mutex]: [true] when held. *)
Definition Mutex : Type := bool.

(** The struct of lines 61-74. *)
Record ChConn : Type := mkChConn {
  mu : Mutex;
  Channel : sshChannel;
  conn : sshConn;
  exclusive : bool;
  reader : netConn;
  writer : netConn
}.

Definition with_mu (m : Mutex) (c : ChConn) : ChConn :=
  {| mu := m;
     Channel := Channel c;
     conn := conn c;
     exclusive := exclusive c;
     reader := reader c;
     writer := writer c |}.

(** Lines 133-137. *)
Definition ConnectionTypeRequest : string := "x-teleport-connection-type".

(** ** Calls on the outside objects *)

Inductive call : Type :=
| NetPipe                                         (* net.Pipe() *)
| GoIoCopy (dst : netConn) (src : sshChannel)     (* go io.Copy(dst, src) *)
| ChannelClose (ch : sshChannel)
| ChannelWrite (ch : sshChannel) (data : list byte)
| ChannelCloseWrite (ch : sshChannel)
| ChannelSendRequest (ch : sshChannel) (name : string) (wantReply : bool)
                     (payload : list byte)
| NetConnClose (e : netConn)
| NetConnRead (e : netConn) (data : list byte)
| NetConnSetDeadline (e : netConn) (t : Time)
| NetConnSetReadDeadline (e : netConn) (t : Time)
| ConnClose (cn : sshConn)
| ConnLocalAddr (cn : sshConn)
| ConnRemoteAddr (cn : sshConn).

(** What each call answers.  A read answers the buffer as it left it
    together with Go's [(int, error)]. *)
Definition resp (c : call) : Type :=
  match c with
  | NetPipe => (netConn * netConn)%type
  | GoIoCopy _ _ => unit
  | ChannelClose _ => error
  | ChannelWrite _ _ => (Z * error)%type
  | ChannelCloseWrite _ => error
  | ChannelSendRequest _ _ _ _ => (bool * error)%type
  | NetConnClose _ => error
  | NetConnRead _ _ => (list byte * (Z * error))%type
  | NetConnSetDeadline _ _ => error
  | NetConnSetReadDeadline _ _ => error
  | ConnClose _ => error
  | ConnLocalAddr _ => Addr
  | ConnRemoteAddr _ => Addr
  end.

(** ** Programs *)

(** Why a goroutine does not return. *)
Variant halt : Type :=
| ParkedOnMutex        (* Lock on a held mutex, nobody to release it *)
| UnlockOfUnlocked.    (* fatal error: sync: unlock of unlocked mutex *)

Inductive prog (R : Type) : Type :=
| Ret (r : R)
| Halt (why : halt)
| Call (c : call) (k : resp c -> prog R).

Arguments Halt {R} why.

Fixpoint pbind {A B : Type} (p : prog A) (f : A -> prog B) : prog B :=
  match p with
  | Ret a => f a
  | Halt why => Halt why
  | Call c k => Call c (fun x => pbind (k x) f)
  end.

(** A method with receiver [c *ChConn]: it sees the struct and hands it
    back as the call left it. *)
Definition method (R : Type) : Type := ChConn -> prog (R * ChConn).

Definition ret {R : Type} (r : R) : method R :=
  fun c => Ret (r, c).

Definition bind {A B : Type} (m : method A) (f : A -> method B) : method B :=
  fun c => pbind (m c) (fun ac => f (fst ac) (snd ac)).

Definition self : method ChConn :=
  fun c => Ret (c, c).

Definition ext (q : call) : method (resp q) :=
  fun c => Call q (fun x => Ret (x, c)).

Declare Scope method_scope.
Delimit Scope method_scope with method.

Notation "x <- m ;; k" := (bind m (fun x => k))
  (at level 100, m at next level, right associativity) : method_scope.
Notation "m ;; k" := (bind m (fun _ => k))
  (at level 100, right associativity) : method_scope.

Open Scope method_scope.

(** [c.mu.Lock()] and [c.mu.Unlock()] *)
Definition Lock : method unit :=
  fun c => if mu c then Halt ParkedOnMutex else Ret (tt, with_mu true c).

Definition Unlock : method unit :=
  fun c => if mu c then Ret (tt, with_mu false c) else Halt UnlockOfUnlocked.

(** [defer d] in front of [body]: [d] runs once [body] has its result. *)
Definition defer {R : Type} (d : method unit) (body : method R) : method R :=
  r <- body ;; d ;; ret r.

(** ** trace.NewAggregate *)

(** Modelled from the spec: [trace.NewAggregate] belongs to the library
    github.com/gravitational/trace, which chconn.go only imports.  The spec
    has it collect every non-nil failure, in order, into one combined error,
    and give no error when there is none. *)
Fixpoint nonNils (errs : list error) : list goerror :=
  match errs with
  | [] => []
  | None :: rest => nonNils rest
  | Some e :: rest => e :: nonNils rest
  end.

Definition NewAggregate (errs : list error) : error :=
  match nonNils errs with
  | [] => None
  | e :: es => Some (Aggregate (e :: es))
  end.

(** ** The methods of chconn.go *)

(** Lines 41-57. *)
Definition newChConn (cn : sshConn) (ch : sshChannel) (excl : bool)
  : prog ChConn :=
  Call NetPipe (fun rw =>
    let c := {| mu := false;
                Channel := ch;
                conn := cn;
                exclusive := excl;
                reader := fst rw;
                writer := snd rw |} in
    Call (GoIoCopy (writer c) ch) (fun _ => Ret c)).

(** Lines 31-33. *)
Definition NewChConn (cn : sshConn) (ch : sshChannel) : prog ChConn :=
  newChConn cn ch false.

(** Lines 37-39. *)
Definition NewExclusiveChConn (cn : sshConn) (ch : sshChannel) : prog ChConn :=
  newChConn cn ch true.

(** [if err != nil { errors = append(errors, err) }] *)
Definition appendErr (errors : list error) (err : error) : list error :=
  if isNil err then errors else errors ++ [err].

(** Lines 77-98. *)
Definition Close : method error :=
  Lock ;;
  defer Unlock (
    let errors := [] in
    c <- self ;;
    err <- ext (ChannelClose (Channel c)) ;;
    let errors := appendErr errors err in
    err <- ext (NetConnClose (reader c)) ;;
    let errors := appendErr errors err in
    err <- ext (NetConnClose (writer c)) ;;
    let errors := appendErr errors err in
    if negb (exclusive c) then
      ret (NewAggregate errors)
    else
      err <- ext (ConnClose (conn c)) ;;
      let errors := appendErr errors err in
      ret (NewAggregate errors)).

(** Lines 102-104. *)
Definition LocalAddr : method Addr :=
  c <- self ;; ext (ConnLocalAddr (conn c)).

(** Lines 108-110. *)
Definition RemoteAddr : method Addr :=
  c <- self ;; ext (ConnRemoteAddr (conn c)).

(** Lines 113-115. *)
Definition Read (data : list byte) : method (list byte * (Z * error)) :=
  c <- self ;; ext (NetConnRead (reader c) data).

(** Lines 118-120. *)
Definition SetDeadline (t : Time) : method error :=
  c <- self ;; ext (NetConnSetDeadline (reader c) t).

(** Lines 123-125. *)
Definition SetReadDeadline (t : Time) : method error :=
  c <- self ;; ext (NetConnSetReadDeadline (reader c) t).

(** Lines 129-131. *)
Definition SetWriteDeadline (t : Time) : method error :=
  ret None.

(** The struct embeds [ssh.Channel] (line 64) and declares no [Write],
    [CloseWrite] or [SendRequest] of its own: Go promotes the channel's.
    ([Stderr], promoted too, hands out a stream object and is left out.) *)
Definition Write (data : list byte) : method (Z * error) :=
  c <- self ;; ext (ChannelWrite (Channel c) data).

Definition CloseWrite : method error :=
  c <- self ;; ext (ChannelCloseWrite (Channel c)).

Definition SendRequest (name : string) (wantReply : bool) (payload : list byte)
  : method (bool * error) :=
  c <- self ;; ext (ChannelSendRequest (Channel c) name wantReply payload).

(** ** Running a program in an environment *)

Variant result (R : Type) : Type :=
| Done (r : R)
| Halted (why : halt).

Arguments Halted {R} why.

Record run_of (W R : Type) : Type := mkRun {
  outcome : result R;     (* what the caller gets *)
  world : W;              (* the environment afterwards *)
  calls : list call       (* the calls issued, oldest first *)
}.

Section Run.

Variable W : Type.

(** An environment answers every call and moves on. *)
Definition handler : Type := forall c : call, W -> resp c * W.

Variable h : handler.

Fixpoint run {R : Type} (p : prog R) (w : W) : run_of W R :=
  match p with
  | Ret r => mkRun (Done r) w []
  | Halt why => mkRun (Halted why) w []
  | Call c k =>
      let xw := h c w in
      let r := run (k (fst xw)) (snd xw) in
      mkRun (outcome r) (world r) (c :: calls r)
  end.

(** The answer and the next world of one call. *)
Definition answer (c : call) (w : W) : resp c := fst (h c w).
Definition after (c : call) (w : W) : W := snd (h c w).

End Run.

(** ** The answers [Close] receives *)

Section CloseAnswers.

Variable W : Type.
Variable h : handler W.

(** The worlds [Close] goes through, call by call. *)
Definition w_after_channel (c : ChConn) (w : W) : W :=
  after h (ChannelClose (Channel c)) w.
Definition w_after_reader (c : ChConn) (w : W) : W :=
  after h (NetConnClose (reader c)) (w_after_channel c w).
Definition w_after_writer (c : ChConn) (w : W) : W :=
  after h (NetConnClose (writer c)) (w_after_reader c w).
Definition w_after_conn (c : ChConn) (w : W) : W :=
  after h (ConnClose (conn c)) (w_after_writer c w).

(** What each close answers there. *)
Definition err_channel (c : ChConn) (w : W) : error :=
  answer h (ChannelClose (Channel c)) w.
Definition err_reader (c : ChConn) (w : W) : error :=
  answer h (NetConnClose (reader c)) (w_after_channel c w).
Definition err_writer (c : ChConn) (w : W) : error :=
  answer h (NetConnClose (writer c)) (w_after_reader c w).
Definition err_conn (c : ChConn) (w : W) : error :=
  answer h (ConnClose (conn c)) (w_after_writer c w).

End CloseAnswers.

(** What [Close] issues and what it folds into its result, per mode. *)
Definition close_calls (c : ChConn) : list call :=
  [ChannelClose (Channel c); NetConnClose (reader c); NetConnClose (writer c)]
  ++ (if exclusive c then [ConnClose (conn c)] else []).

Definition close_errs {W : Type} (h : handler W) (c : ChConn) (w : W)
  : list error :=
  [err_channel h c w; err_reader h c w; err_writer h c w]
  ++ (if exclusive c then [err_conn h c w] else []).

Definition close_world {W : Type} (h : handler W) (c : ChConn) (w : W) : W :=
  if exclusive c then w_after_conn h c w else w_after_writer h c w.

(** Two calls in a row on the same receiver. *)
Definition then_ {A B : Type} (m : method A) (k : method B) : method (A * B) :=
  a <- m ;; b <- k ;; ret (a, b).

(** ** The public surface, one constructor per method *)

Variant api : Type :=
| ApiClose
| ApiLocalAddr
| ApiRemoteAddr
| ApiRead (data : list byte)
| ApiWrite (data : list byte)
| ApiSetDeadline (t : Time)
| ApiSetReadDeadline (t : Time)
| ApiSetWriteDeadline (t : Time)
| ApiCloseWrite
| ApiSendRequest (name : string) (wantReply : bool) (payload : list byte).

(** The method behind each, its result forgotten. *)
Definition forget {R : Type} (m : method R) : method unit :=
  _ <- m ;; ret tt.

Definition invoke (a : api) : method unit :=
  match a with
  | ApiClose => forget Close
  | ApiLocalAddr => forget LocalAddr
  | ApiRemoteAddr => forget RemoteAddr
  | ApiRead data => forget (Read data)
  | ApiWrite data => forget (Write data)
  | ApiSetDeadline t => forget (SetDeadline t)
  | ApiSetReadDeadline t => forget (SetReadDeadline t)
  | ApiSetWriteDeadline t => forget (SetWriteDeadline t)
  | ApiCloseWrite => forget CloseWrite
  | ApiSendRequest name wantReply payload =>
      forget (SendRequest name wantReply payload)
  end.

(** The methods chconn.go declares itself, as against those Go promotes
    from the embedded channel. *)
Definition declared (a : api) : bool :=
  match a with
  | ApiWrite _ | ApiCloseWrite | ApiSendRequest _ _ _ => false
  | _ => true
  end.

Definition forwards_request (a : api) : bool :=
  match a with
  | ApiSendRequest _ _ _ => true
  | _ => false
  end.

(** The calls behind each method; [Close] issues none when it finds the
    mutex held. *)
Definition calls_of (a : api) (c : ChConn) : list call :=
  match a with
  | ApiClose => if mu c then [] else close_calls c
  | ApiLocalAddr => [ConnLocalAddr (conn c)]
  | ApiRemoteAddr => [ConnRemoteAddr (conn c)]
  | ApiRead data => [NetConnRead (reader c) data]
  | ApiWrite data => [ChannelWrite (Channel c) data]
  | ApiSetDeadline t => [NetConnSetDeadline (reader c) t]
  | ApiSetReadDeadline t => [NetConnSetReadDeadline (reader c) t]
  | ApiSetWriteDeadline _ => []
  | ApiCloseWrite => [ChannelCloseWrite (Channel c)]
  | ApiSendRequest name wantReply payload =>
      [ChannelSendRequest (Channel c) name wantReply payload]
  end.

(** A caller using the connection for a while. *)
Fixpoint session (ops : list api) : method unit :=
  match ops with
  | [] => ret tt
  | a :: rest => invoke a ;; session rest
  end.

Definition is_deadline_setter (a : api) : bool :=
  match a with
  | ApiSetDeadline _ | ApiSetReadDeadline _ => true
  | _ => false
  end.

Definition installs_deadline (q : call) : bool :=
  match q with
  | NetConnSetDeadline _ _ | NetConnSetReadDeadline _ _ => true
  | _ => false
  end.

Definition is_send_request (q : call) : bool :=
  match q with
  | ChannelSendRequest _ _ _ _ => true
  | _ => false
  end.

Definition is_conn_close (q : call) : bool :=
  match q with
  | ConnClose _ => true
  | _ => false
  end.

Definition on_pipe (q : call) : bool :=
  match q with
  | NetPipe | NetConnClose _ | NetConnRead _ _
  | NetConnSetDeadline _ _ | NetConnSetReadDeadline _ _ => true
  | _ => false
  end.

Definition on_conn (q : call) : bool :=
  match q with
  | ConnClose _ | ConnLocalAddr _ | ConnRemoteAddr _ => true
  | _ => false
  end.

(** ** A scripted environment *)

(** A test double: every close pops its answer from a script (and answers
    [nil] once the script is used up); every other call answers a fixed
    value. *)
Definition quiet (q : call) : resp q :=
  match q return resp q with
  | NetPipe => (NetConn 0, NetConn 1)
  | GoIoCopy _ _ => tt
  | ChannelClose _ => None
  | ChannelWrite _ data => (Z.of_nat (List.length data), None)
  | ChannelCloseWrite _ => None
  | ChannelSendRequest _ _ _ _ => (false, None)
  | NetConnClose _ => None
  | NetConnRead _ data => (data, (0%Z, None))
  | NetConnSetDeadline _ _ => None
  | NetConnSetReadDeadline _ _ => None
  | ConnClose _ => None
  | ConnLocalAddr _ => "local"%string
  | ConnRemoteAddr _ => "remote"%string
  end.

Definition scripted : handler (list error) :=
  fun q script =>
    match q return resp q * list error with
    | ChannelClose _ => (hd None script, tl script)
    | NetConnClose _ => (hd None script, tl script)
    | ConnClose _ => (hd None script, tl script)
    | q' => (quiet q', script)
    end.

Definition errChannel : goerror := ErrorString "channel close failed".
Definition errParent : goerror := ErrorString "parent close failed".

Definition sharedConn : ChConn :=
  mkChConn false (SshChannel 7) (SshConn 3) false (NetConn 0) (NetConn 1).

Definition exclusiveConn : ChConn :=
  mkChConn false (SshChannel 7) (SshConn 3) true (NetConn 0) (NetConn 1).

(** ** The data path: channel, copy goroutine, pipe *)

(** [newChConn] wires three things of Go's libraries together: the SSH
    channel, [net.Pipe] and [io.Copy].  [net.Pipe] is synchronous and
    unbuffered: a [Write] hands its bytes over to [Read]s on the other end
    and returns when the last one is taken; a [Read] takes as many of the
    pending bytes as its buffer holds.  [io.Copy] reads the source into a
    32 KiB buffer and writes what it got to the destination, in a loop.  The
    goroutine and the caller are interleaved by a schedule. *)
Module Sim.

Definition copyBuf : nat := 32 * 1024.

Definition ErrClosedPipe : goerror := ErrorString "io: read/write on closed pipe".
Definition EOF : goerror := ErrorString "EOF".
Definition ErrDeadlineExceeded : goerror := ErrorString "i/o timeout".

Definition readEnd : netConn := NetConn 0.
Definition writeEnd : netConn := NetConn 1.

Definition netConn_eqb (a b : netConn) : bool :=
  match a, b with
  | NetConn i, NetConn j => Nat.eqb i j
  end.

Record state : Type := mkState {
  sent : list byte;      (* all the peer has written into the channel *)
  inchan : list byte;    (* arrived, not yet read by the copy goroutine *)
  inpipe : list byte;    (* rest of the goroutine's pending pipe Write *)
  copying : bool;        (* the copy goroutine is running *)
  rclosed : bool;        (* read end closed *)
  wclosed : bool;        (* write end closed *)
  chclosed : bool        (* channel closed from this side *)
}.

Definition init : state := mkState [] [] [] false false false false.

Definition set_data (snt ch pp : list byte) (s : state) : state :=
  mkState snt ch pp (copying s) (rclosed s) (wclosed s) (chclosed s).

Definition set_flags (cp rc wc cc : bool) (s : state) : state :=
  mkState (sent s) (inchan s) (inpipe s) cp rc wc cc.

Definition pipe_open (s : state) : bool :=
  negb (rclosed s) && negb (wclosed s).

(** [pipe.Read] on the read end: closed ends first, then the pending
    write; with nothing pending a Read waits, and the only way it comes
    back with both ends open is its deadline. *)
Definition pipe_read (data : list byte) (s : state)
  : (list byte * (Z * error)) * state :=
  if rclosed s then ((data, (0%Z, Some ErrClosedPipe)), s)
  else if wclosed s then ((data, (0%Z, Some EOF)), s)
  else match inpipe s with
       | [] => ((data, (0%Z, Some ErrDeadlineExceeded)), s)
       | _ :: _ =>
           let n := Nat.min (List.length data) (List.length (inpipe s)) in
           ((firstn n (inpipe s) ++ skipn n data, (Z.of_nat n, None)),
            set_data (sent s) (inchan s) (skipn n (inpipe s)) s)
       end.

Definition set_deadline (s : state) : error :=
  if pipe_open s then None else Some ErrClosedPipe.

Definition handle : handler state :=
  fun q s =>
    match q return resp q * state with
    | NetPipe => ((readEnd, writeEnd), s)
    | GoIoCopy dst _ =>
        (tt, set_flags (netConn_eqb dst writeEnd) (rclosed s) (wclosed s)
                       (chclosed s) s)
    | ChannelClose _ =>
        if chclosed s then (Some EOF, s)
        else (None, set_flags (copying s) (rclosed s) (wclosed s) true s)
    | ChannelWrite _ data =>
        if chclosed s then ((0%Z, Some EOF), s)
        else ((Z.of_nat (List.length data), None), s)
    | ChannelCloseWrite _ =>
        if chclosed s then (Some EOF, s) else (None, s)
    | ChannelSendRequest _ _ _ _ =>
        if chclosed s then ((false, Some EOF), s) else ((false, None), s)
    | NetConnClose e =>
        if netConn_eqb e readEnd
        then (None, set_flags (copying s) true (wclosed s) (chclosed s) s)
        else if netConn_eqb e writeEnd
        then (None, set_flags (copying s) (rclosed s) true (chclosed s) s)
        else (None, s)
    | NetConnRead e data =>
        if netConn_eqb e readEnd then pipe_read data s
        else ((data, (0%Z, Some ErrDeadlineExceeded)), s)
    | NetConnSetDeadline _ _ => (set_deadline s, s)
    | NetConnSetReadDeadline _ _ => (set_deadline s, s)
    | ConnClose _ => (None, s)
    | ConnLocalAddr _ => ("10.0.0.1:3022"%string, s)
    | ConnRemoteAddr _ => ("10.0.0.2:51011"%string, s)
    end.

(** What can happen next. *)
Variant action : Type :=
| PeerWrite (bs : list byte)      (* the peer writes into the channel *)
| CopyTurn (n : nat)              (* the goroutine's next ch.Read gets n bytes *)
| CallerRead (buf : list byte).   (* the caller calls c.Read(buf) *)

Definition peer_write (bs : list byte) (s : state) : state :=
  if chclosed s then s
  else set_data (sent s ++ bs) (inchan s ++ bs) (inpipe s) s.

(** One round of [io.Copy]'s loop: possible once the previous [Write] has
    returned, that is once the pipe holds nothing of it any more. *)
Definition copy_turn (n : nat) (s : state) : state :=
  if copying s && pipe_open s && negb (chclosed s) then
    match inpipe s with
    | [] =>
        let m := Nat.min n (Nat.min copyBuf (List.length (inchan s))) in
        set_data (sent s) (skipn m (inchan s)) (firstn m (inchan s)) s
    | _ :: _ => s
    end
  else s.

(** The simulation with the caller's side: the chunks its Reads returned. *)
Definition config : Type := (state * list (list byte))%type.

Definition caller_read (c : ChConn) (buf : list byte) (g : config) : config :=
  let r := run handle (Read buf c) (fst g) in
  match outcome r with
  | Done (buf', (n, _), _) => (world r, snd g ++ [firstn (Z.to_nat n) buf'])
  | Halted _ => (world r, snd g)
  end.

Definition step (c : ChConn) (g : config) (a : action) : config :=
  match a with
  | PeerWrite bs => (peer_write bs (fst g), snd g)
  | CopyTurn n => (copy_turn n (fst g), snd g)
  | CallerRead buf => caller_read c buf g
  end.

Definition exec (c : ChConn) (sched : list action) (g : config) : config :=
  fold_left (step c) sched g.

(** The bytes the caller has, in the order it got them. *)
Definition received (g : config) : list byte := List.concat (snd g).

(** Goroutine and caller taking turns, [k] times each. *)
Fixpoint pump (buf : list byte) (k : nat) : list action :=
  match k with
  | O => []
  | S k' => CopyTurn copyBuf :: CallerRead buf :: pump buf k'
  end.

Definition backlog (s : state) : nat :=
  List.length (inpipe s) + List.length (inchan s).

(** The connection [newChConn] builds in the simulation and the world it
    leaves. *)
Definition dial (cn : sshConn) (ch : sshChannel) (excl : bool)
  : run_of state ChConn :=
  run handle (newChConn cn ch excl) init.

Definition dialled (cn : sshConn) (ch : sshChannel) (excl : bool) : ChConn :=
  mkChConn false ch cn excl readEnd writeEnd.

Definition started : state := mkState [] [] [] true false false false.

(** Everything the peer writes in the course of a schedule. *)
Fixpoint written (sched : list action) : list byte :=
  match sched with
  | [] => []
  | PeerWrite bs :: rest => bs ++ written rest
  | _ :: rest => written rest
  end.

(** Nothing lost, doubled or out of place: what the caller has, then what
    the pipe holds, then what the channel holds, is what the peer sent. *)
Definition conserved (g : config) : Prop :=
  received g ++ inpipe (fst g) ++ inchan (fst g) = sent (fst g).

(** The connection is in use: goroutine running, nothing closed. *)
Definition live (s : state) : Prop :=
  copying s = true /\ rclosed s = false /\ wclosed s = false
  /\ chclosed s = false.

End Sim.

Arguments Sim.copyBuf : simpl never.

(** ** Whose object a call is on *)

Definition sshChannel_eqb (a b : sshChannel) : bool :=
  match a, b with
  | SshChannel i, SshChannel j => Nat.eqb i j
  end.

Definition sshConn_eqb (a b : sshConn) : bool :=
  match a, b with
  | SshConn i, SshConn j => Nat.eqb i j
  end.

(** A call a method of [c] may issue: on [c]'s channel, on [c]'s parent, a
    close of either pipe end, or a read or deadline on the read end.  A new
    pipe or a new goroutine is the constructor's business alone. *)
Definition own_call (c : ChConn) (q : call) : bool :=
  match q with
  | NetPipe => false
  | GoIoCopy _ _ => false
  | ChannelClose ch => sshChannel_eqb ch (Channel c)
  | ChannelWrite ch _ => sshChannel_eqb ch (Channel c)
  | ChannelCloseWrite ch => sshChannel_eqb ch (Channel c)
  | ChannelSendRequest ch _ _ _ => sshChannel_eqb ch (Channel c)
  | NetConnClose e =>
      Sim.netConn_eqb e (reader c) || Sim.netConn_eqb e (writer c)
  | NetConnRead e _ => Sim.netConn_eqb e (reader c)
  | NetConnSetDeadline e _ => Sim.netConn_eqb e (reader c)
  | NetConnSetReadDeadline e _ => Sim.netConn_eqb e (reader c)
  | ConnClose cn => sshConn_eqb cn (conn c)
  | ConnLocalAddr cn => sshConn_eqb cn (conn c)
  | ConnRemoteAddr cn => sshConn_eqb cn (conn c)
  end.

Definition is_close (a : api) : bool :=
  match a with
  | ApiClose => true
  | _ => false
  end.

(** How often a session calls [Close]. *)
Definition closes (ops : list api) : nat :=
  List.length (filter is_close ops).

(** How often a call log closes the parent connection. *)
Definition parent_closes (log : list call) : nat :=
  List.length (filter is_conn_close log).


(** A constructor followed by a first method on what it returned. *)
Definition construct_then {R : Type} (cn : sshConn) (ch : sshChannel)
  (excl : bool) (m : method R) : prog (R * ChConn) :=
  pbind (newChConn cn ch excl) m.

(** The simulated world once both pipe ends and the channel are closed. *)
Definition torn_down (s : Sim.state) : Sim.state :=
  Sim.set_flags (Sim.copying s) true true true s.

(** * Properties *)

(** ** trace.NewAggregate *)

Lemma NewAggregate_nil_iff (errs : list error) :
  NewAggregate errs = None <-> (forall e, In e errs -> e = None).
Proof.
  unfold NewAggregate. induction errs as [|[e|] errs IH]; simpl.
  - split; [intros _ e [] | reflexivity].
  - split; [discriminate | intros H].
    specialize (H (Some e) (or_introl eq_refl)). discriminate.
  - rewrite IH. split.
    + intros H e [<-|Hin]; [reflexivity | now apply H].
    + intros H e Hin. apply H. now right.
Qed.

Lemma nonNils_In (errs : list error) (e : goerror) :
  In e (nonNils errs) <-> In (Some e) errs.
Proof.
  induction errs as [|[e'|] errs IH]; simpl.
  - tauto.
  - rewrite IH. split; (intros [H|H]; [left; congruence | now right]).
  - rewrite IH. split; [now right | intros [H|H]; [discriminate | exact H]].
Qed.

Lemma NewAggregate_reports (errs : list error) (e : goerror) :
  In (Some e) errs ->
  NewAggregate errs = Some (Aggregate (nonNils errs)) /\ In e (nonNils errs).
Proof.
  intros Hin. apply nonNils_In in Hin. unfold NewAggregate.
  destruct (nonNils errs) as [|e0 es]; [destruct Hin | now split].
Qed.

Lemma aggregate_of_three (a b c : error) :
  NewAggregate (appendErr (appendErr (appendErr [] a) b) c)
  = NewAggregate [a; b; c].
Proof. destruct a, b, c; reflexivity. Qed.

Lemma aggregate_of_four (a b c d : error) :
  NewAggregate (appendErr (appendErr (appendErr (appendErr [] a) b) c) d)
  = NewAggregate [a; b; c; d].
Proof. destruct a, b, c, d; reflexivity. Qed.

(** ** Running programs *)

Section RunLemmas.

Variable W : Type.
Variable h : handler W.

Lemma run_pbind {A B : Type} (p : prog A) (f : A -> prog B) (w : W) :
  run h (pbind p f) w =
    match outcome (run h p w) with
    | Done a =>
        let r2 := run h (f a) (world (run h p w)) in
        mkRun (outcome r2) (world r2) (calls (run h p w) ++ calls r2)
    | Halted why => mkRun (Halted why) (world (run h p w)) (calls (run h p w))
    end.
Proof.
  revert w. induction p as [a|why|q k IH]; intros w; simpl.
  - now destruct (run h (f a) w).
  - reflexivity.
  - rewrite IH. now destruct (outcome (run h (k (fst (h q w))) (snd (h q w)))).
Qed.

(** [Close] on a free mutex, in either mode. *)
Lemma Close_run (c : ChConn) (w : W) :
  mu c = false ->
  run h (Close c) w =
    mkRun (Done (NewAggregate (close_errs h c w), c))
          (close_world h c w) (close_calls c).
Proof.
  intros Hmu. destruct c as [m ch cn ex r wr]; simpl in Hmu; subst m.
  unfold close_errs, close_world, close_calls.
  destruct ex; cbn; f_equal; f_equal; f_equal.
  - apply aggregate_of_four.
  - apply aggregate_of_three.
Qed.

(** [Close] on a held mutex parks before any call. *)
Lemma Close_parked (c : ChConn) (w : W) :
  mu c = true ->
  run h (Close c) w = mkRun (Halted ParkedOnMutex) w [].
Proof.
  intros Hmu. destruct c as [m ch cn ex r wr]; simpl in Hmu; subst m.
  reflexivity.
Qed.

End RunLemmas.

(** ** Close *)

(** C1. For every exclusive ChConn (mutex free, as between calls), in every
    environment: [Close] issues the channel close, both pipe closes and then
    the parent connection's close, whatever the first three answered; what
    it returns is the aggregate of all four answers, so every failure among
    them, the parent's included, is one of the aggregate's causes, and the
    result is [nil] only when all four succeeded. *)
Theorem exclusive_close_closes_parent
  (W : Type) (h : handler W) (c : ChConn) (w : W) :
  mu c = false -> exclusive c = true ->
  let r := run h (Close c) w in
  let answers := [err_channel h c w; err_reader h c w;
                  err_writer h c w; err_conn h c w] in
  calls r = [ChannelClose (Channel c); NetConnClose (reader c);
             NetConnClose (writer c); ConnClose (conn c)]
  /\ outcome r = Done (NewAggregate answers, c)
  /\ world r = w_after_conn h c w
  /\ (forall e, In (Some e) answers ->
        NewAggregate answers = Some (Aggregate (nonNils answers))
        /\ In e (nonNils answers))
  /\ (NewAggregate answers = None <-> forall e, In e answers -> e = None).
Proof.
  intros Hmu Hex r answers. subst r.
  rewrite (Close_run h c w Hmu).
  unfold close_calls, close_errs, close_world. rewrite Hex. cbn [app].
  split; [reflexivity|]. split; [reflexivity|]. split; [reflexivity|].
  split.
  - intros e Hin. now apply NewAggregate_reports.
  - apply NewAggregate_nil_iff.
Qed.

(** The spec's scenario: channel close and parent close both fail. *)
Lemma exclusive_close_closes_parent_witness :
  mu exclusiveConn = false /\ exclusive exclusiveConn = true
  /\ outcome (run scripted (Close exclusiveConn)
                  [Some errChannel; None; None; Some errParent])
     = Done (Some (Aggregate [errChannel; errParent]), exclusiveConn).
Proof.
  split; [reflexivity|]. split; [reflexivity|].
  exact (proj1 (proj2 (exclusive_close_closes_parent
                         scripted exclusiveConn
                         [Some errChannel; None; None; Some errParent]
                         eq_refl eq_refl))).
Defined.

(** C2. For every shared (non-exclusive) ChConn, in every environment:
    [Close] issues the channel close and the two pipe closes and nothing
    else; no call goes to the parent connection, its [Close] least of all,
    and whatever only calls on the parent can change is as it was. *)
Theorem shared_close_leaves_parent
  (W : Type) (h : handler W) (c : ChConn) (w : W) :
  mu c = false -> exclusive c = false ->
  let r := run h (Close c) w in
  calls r = [ChannelClose (Channel c); NetConnClose (reader c);
             NetConnClose (writer c)]
  /\ existsb is_conn_close (calls r) = false
  /\ existsb on_conn (calls r) = false
  /\ world r = w_after_writer h c w
  /\ (forall (A : Type) (parent : W -> A),
        (forall q w', on_conn q = false -> parent (after h q w') = parent w') ->
        parent (world r) = parent w).
Proof.
  intros Hmu Hex r. subst r.
  rewrite (Close_run h c w Hmu).
  unfold close_calls, close_errs, close_world. rewrite Hex. cbn.
  split; [reflexivity|]. split; [reflexivity|]. split; [reflexivity|].
  split; [reflexivity|].
  intros A parent Hframe.
  unfold w_after_writer, w_after_reader, w_after_channel.
  now rewrite !Hframe.
Qed.

(** The script's fourth answer, kept for the parent, is never asked for. *)
Lemma shared_close_leaves_parent_witness :
  mu sharedConn = false /\ exclusive sharedConn = false
  /\ existsb is_conn_close
       (calls (run scripted (Close sharedConn)
                   [Some errChannel; None; None; Some errParent])) = false.
Proof.
  split; [reflexivity|]. split; [reflexivity|].
  exact (proj1 (proj2 (shared_close_leaves_parent
                         scripted sharedConn
                         [Some errChannel; None; None; Some errParent]
                         eq_refl eq_refl))).
Defined.

(** C3. For every ChConn (mutex free), in every environment: [Close]
    issues the channel close, the read-end close and the write-end close,
    in that order and whatever each answers; its result is the aggregate of
    the answers of all the closes it issued, so each non-nil answer is one
    of the aggregate's causes, in order; and the result is [nil] when none
    of them failed. *)
Theorem close_attempts_all_and_aggregates
  (W : Type) (h : handler W) (c : ChConn) (w : W) :
  mu c = false ->
  let r := run h (Close c) w in
  firstn 3 (calls r) = [ChannelClose (Channel c); NetConnClose (reader c);
                         NetConnClose (writer c)]
  /\ calls r = close_calls c
  /\ outcome r = Done (NewAggregate (close_errs h c w), c)
  /\ (forall e, In (Some e) (close_errs h c w) ->
        NewAggregate (close_errs h c w)
        = Some (Aggregate (nonNils (close_errs h c w)))
        /\ In e (nonNils (close_errs h c w)))
  /\ ((forall e, In e (close_errs h c w) -> e = None) ->
        outcome r = Done (None, c))
  /\ (NewAggregate (close_errs h c w) = None ->
        forall e, In e (close_errs h c w) -> e = None).
Proof.
  intros Hmu r. subst r. rewrite (Close_run h c w Hmu). cbn [calls outcome].
  split; [reflexivity|]. split; [reflexivity|]. split; [reflexivity|].
  split; [|split].
  - intros e Hin. now apply NewAggregate_reports.
  - intros Hall. apply NewAggregate_nil_iff in Hall. now rewrite Hall.
  - apply NewAggregate_nil_iff.
Qed.

(** All three fail on a shared connection: three causes, in call order. *)
Lemma close_attempts_all_and_aggregates_witness :
  mu sharedConn = false
  /\ outcome (run scripted (Close sharedConn)
                  [Some (ErrorString "a"); Some (ErrorString "b");
                   Some (ErrorString "c")])
     = Done (Some (Aggregate [ErrorString "a"; ErrorString "b";
                              ErrorString "c"]), sharedConn).
Proof.
  split; [reflexivity|].
  exact (proj1 (proj2 (proj2 (close_attempts_all_and_aggregates
                                scripted sharedConn
                                [Some (ErrorString "a"); Some (ErrorString "b");
                                 Some (ErrorString "c")]
                                eq_refl)))).
Defined.

(** ** The whole surface *)

Section Surface.

Variable W : Type.
Variable h : handler W.

Lemma forget_Close_run (c : ChConn) (w : W) :
  run h (forget Close c) w =
    if mu c then mkRun (Halted ParkedOnMutex) w []
    else mkRun (Done (tt, c)) (close_world h c w) (close_calls c).
Proof.
  unfold forget, bind. rewrite run_pbind.
  destruct (mu c) eqn:Hmu.
  - now rewrite (Close_parked h c w Hmu).
  - rewrite (Close_run h c w Hmu). cbn. now rewrite app_nil_r.
Qed.

Lemma invoke_calls (a : api) (c : ChConn) (w : W) :
  calls (run h (invoke a c) w) = calls_of a c.
Proof.
  destruct a; try reflexivity.
  cbn [invoke calls_of]. rewrite forget_Close_run. now destruct (mu c).
Qed.

(** A method either hands the struct back as it found it, or it is
    [Close] parked on a held mutex. *)
Lemma invoke_outcome (a : api) (c : ChConn) (w : W) :
  outcome (run h (invoke a c) w) =
    match a with
    | ApiClose => if mu c then Halted ParkedOnMutex else Done (tt, c)
    | _ => Done (tt, c)
    end.
Proof.
  destruct a; try reflexivity.
  cbn [invoke]. rewrite forget_Close_run. now destruct (mu c).
Qed.

Lemma invoke_returns (a : api) (c c' : ChConn) (w : W) :
  outcome (run h (invoke a c) w) = Done (tt, c') -> c' = c.
Proof.
  rewrite invoke_outcome. destruct a; try congruence.
  destruct (mu c); congruence.
Qed.

Lemma session_returns (ops : list api) (c c' : ChConn) (w : W) :
  outcome (run h (session ops c) w) = Done (tt, c') -> c' = c.
Proof.
  revert c w. induction ops as [|a ops IH]; intros c w; cbn [session].
  - cbn. congruence.
  - unfold bind. rewrite run_pbind.
    destruct (outcome (run h (invoke a c) w)) as [[[] c1]|why] eqn:Ha.
    + apply invoke_returns in Ha. subst c1. cbn. apply IH.
    + cbn. discriminate.
Qed.

Lemma session_completes (ops : list api) (c : ChConn) (w : W) :
  mu c = false -> outcome (run h (session ops c) w) = Done (tt, c).
Proof.
  intros Hmu. revert w. induction ops as [|a ops IH]; intros w; cbn [session].
  - reflexivity.
  - unfold bind. rewrite run_pbind.
    assert (Ha : outcome (run h (invoke a c) w) = Done (tt, c)).
    { rewrite invoke_outcome. destruct a; try reflexivity. now rewrite Hmu. }
    rewrite Ha. cbn. apply IH.
Qed.

Lemma newChConn_run (cn : sshConn) (ch : sshChannel) (excl : bool) (w : W) :
  run h (newChConn cn ch excl) w =
    let rw := answer h NetPipe w in
    let c := mkChConn false ch cn excl (fst rw) (snd rw) in
    mkRun (Done c)
          (after h (GoIoCopy (writer c) ch) (after h NetPipe w))
          [NetPipe; GoIoCopy (writer c) ch].
Proof. reflexivity. Qed.

Lemma double_Close_run (c : ChConn) (w : W) :
  mu c = false ->
  run h (then_ Close Close c) w =
    mkRun (Done (NewAggregate (close_errs h c w),
                 NewAggregate (close_errs h c (close_world h c w)), c))
          (close_world h c (close_world h c w))
          (close_calls c ++ close_calls c).
Proof.
  intros Hmu. unfold then_, bind.
  rewrite run_pbind, (Close_run h c w Hmu). cbn.
  rewrite run_pbind, (Close_run h c _ Hmu). cbn.
  now rewrite app_nil_r.
Qed.

End Surface.

(** ** Deadlines and Write *)

(** C5. For every ChConn, every time value and every environment:
    [SetWriteDeadline] returns [nil], issues no call, leaves the
    environment and the struct as they were; whatever method follows it,
    [Write] included, runs exactly as it would have without it. *)
Theorem SetWriteDeadline_is_noop
  (W : Type) (h : handler W) (c : ChConn) (w : W) (t : Time) :
  run h (SetWriteDeadline t c) w = mkRun (Done (None, c)) w []
  /\ (forall data,
        run h ((SetWriteDeadline t ;; Write data) c) w = run h (Write data c) w)
  /\ (forall (R : Type) (m : method R),
        run h ((SetWriteDeadline t ;; m) c) w = run h (m c) w).
Proof.
  split; [reflexivity|]. split.
  - intros data. reflexivity.
  - intros R m. unfold bind, SetWriteDeadline, ret. cbn. reflexivity.
Qed.

(** C6. For every ChConn, every time value and every environment:
    [SetDeadline(t)] is the one call [SetDeadline(t)] on the pipe's read end
    and returns its answer; [SetReadDeadline(t)] is the one call
    [SetReadDeadline(t)] on the read end and returns its answer; a method
    issues a deadline call exactly when it is one of these two, and the
    constructors issue none. *)
Theorem deadlines_delegate_to_read_end
  (W : Type) (h : handler W) (c : ChConn) (w : W) (t : Time) :
  run h (SetDeadline t c) w =
    mkRun (Done (answer h (NetConnSetDeadline (reader c) t) w, c))
          (after h (NetConnSetDeadline (reader c) t) w)
          [NetConnSetDeadline (reader c) t]
  /\ run h (SetReadDeadline t c) w =
       mkRun (Done (answer h (NetConnSetReadDeadline (reader c) t) w, c))
             (after h (NetConnSetReadDeadline (reader c) t) w)
             [NetConnSetReadDeadline (reader c) t]
  /\ (forall a : api,
        existsb installs_deadline (calls (run h (invoke a c) w))
        = is_deadline_setter a)
  /\ (forall cn ch excl,
        existsb installs_deadline (calls (run h (newChConn cn ch excl) w))
        = false).
Proof.
  split; [reflexivity|]. split; [reflexivity|]. split.
  - intros a. rewrite invoke_calls.
    destruct a; try reflexivity.
    cbn [calls_of is_deadline_setter]. unfold close_calls.
    now destruct (mu c), (exclusive c).
  - intros cn ch excl. reflexivity.
Qed.

(** C7. For every ChConn, every buffer and every environment: [Write] is
    the one call [Write] on the channel; it returns the channel's [(n, err)]
    as it is and leaves the struct alone; it issues no call on the pipe.
    Where a deadline set on the read end does not change what the channel
    answers to that write, [Write] returns the same with or without a
    [SetReadDeadline] or [SetDeadline] before it. *)
Theorem Write_goes_to_channel
  (W : Type) (h : handler W) (c : ChConn) (w : W) (data : list byte) :
  run h (Write data c) w =
    mkRun (Done (answer h (ChannelWrite (Channel c) data) w, c))
          (after h (ChannelWrite (Channel c) data) w)
          [ChannelWrite (Channel c) data]
  /\ existsb on_pipe (calls (run h (Write data c) w)) = false
  /\ (forall t,
        answer h (ChannelWrite (Channel c) data)
               (after h (NetConnSetReadDeadline (reader c) t) w)
        = answer h (ChannelWrite (Channel c) data) w ->
        outcome (run h ((SetReadDeadline t ;; Write data) c) w)
        = outcome (run h (Write data c) w))
  /\ (forall t,
        answer h (ChannelWrite (Channel c) data)
               (after h (NetConnSetDeadline (reader c) t) w)
        = answer h (ChannelWrite (Channel c) data) w ->
        outcome (run h ((SetDeadline t ;; Write data) c) w)
        = outcome (run h (Write data c) w)).
Proof.
  split; [reflexivity|]. split; [reflexivity|]. split.
  - intros t Hsame.
    exact (f_equal (fun x => Done (x, c)) Hsame).
  - intros t Hsame.
    exact (f_equal (fun x => Done (x, c)) Hsame).
Qed.

(** In the simulated pipe, with a read deadline long past. *)
Lemma Write_goes_to_channel_witness :
  outcome (run Sim.handle
             ((SetReadDeadline (-1)%Z ;; Write [x70; x69; x6e; x67])
                (Sim.dialled (SshConn 3) (SshChannel 7) false))
             Sim.started)
  = Done (4%Z, None, Sim.dialled (SshConn 3) (SshChannel 7) false).
Proof.
  exact (eq_trans
    (proj1 (proj2 (proj2 (Write_goes_to_channel
       Sim.handle (Sim.dialled (SshConn 3) (SshChannel 7) false) Sim.started
       [x70; x69; x6e; x67]))) (-1)%Z eq_refl)
    eq_refl).
Defined.

(** ** The request name *)

(** C8. [ConnectionTypeRequest] is the string x-teleport-connection-type.
    No constructor and no method that chconn.go declares issues a
    [SendRequest], in any environment; the only request a ChConn passes on
    is the one a caller hands to the channel's own [SendRequest], promoted
    through the embedding, and it goes out with the caller's name, flag and
    payload as given. *)
Theorem ConnectionTypeRequest_value_and_use
  (W : Type) (h : handler W) (c : ChConn) (w : W) :
  ConnectionTypeRequest = "x-teleport-connection-type"%string
  /\ String.length ConnectionTypeRequest = 26
  /\ (forall a : api,
        existsb is_send_request (calls (run h (invoke a c) w))
        = forwards_request a)
  /\ (forall a : api, declared a = true -> forwards_request a = false)
  /\ (forall cn ch excl,
        existsb is_send_request (calls (run h (newChConn cn ch excl) w))
        = false)
  /\ (forall name wantReply payload,
        run h (SendRequest name wantReply payload c) w =
          mkRun (Done (answer h (ChannelSendRequest (Channel c) name wantReply
                                                    payload) w, c))
                (after h (ChannelSendRequest (Channel c) name wantReply
                                             payload) w)
                [ChannelSendRequest (Channel c) name wantReply payload]).
Proof.
  split; [reflexivity|]. split; [reflexivity|]. split; [|split; [|split]].
  - intros a. rewrite invoke_calls.
    destruct a; try reflexivity.
    cbn [calls_of forwards_request]. unfold close_calls.
    now destruct (mu c), (exclusive c).
  - intros a. now destruct a.
  - intros cn ch excl. reflexivity.
  - intros name wantReply payload. reflexivity.
Qed.

Lemma ConnectionTypeRequest_value_and_use_witness :
  declared ApiClose = true /\ forwards_request ApiClose = false.
Proof.
  split; [reflexivity|].
  exact (proj1 (proj2 (proj2 (proj2 (ConnectionTypeRequest_value_and_use
                                       scripted sharedConn []))))
           ApiClose eq_refl).
Defined.

(** ** The exclusive flag *)

(** C9. [NewChConn] and [NewExclusiveChConn] are [newChConn] with
    [exclusive] false and true; in every environment they return a ChConn
    whose flag is false, respectively true, with its mutex free.  After any
    sequence of methods that returns, the flag (the whole struct, in fact)
    is what it was before; and from a free mutex every sequence returns. *)
Theorem exclusive_set_once
  (W : Type) (h : handler W) (cn : sshConn) (ch : sshChannel) (w : W) :
  NewChConn cn ch = newChConn cn ch false
  /\ NewExclusiveChConn cn ch = newChConn cn ch true
  /\ (exists c, outcome (run h (NewChConn cn ch) w) = Done c
                /\ exclusive c = false /\ mu c = false)
  /\ (exists c, outcome (run h (NewExclusiveChConn cn ch) w) = Done c
                /\ exclusive c = true /\ mu c = false)
  /\ (forall ops c w' c',
        outcome (run h (session ops c) w') = Done (tt, c') ->
        exclusive c' = exclusive c)
  /\ (forall ops c w',
        mu c = false -> outcome (run h (session ops c) w') = Done (tt, c)).
Proof.
  split; [reflexivity|]. split; [reflexivity|].
  split; [eexists; repeat split|]. split; [eexists; repeat split|].
  split.
  - intros ops c w' c' Hdone. now rewrite (session_returns h ops c w' Hdone).
  - intros ops c w' Hmu. now apply session_completes.
Qed.

Lemma exclusive_set_once_witness :
  mu exclusiveConn = false
  /\ outcome (run scripted
                (session [ApiRead [x00]; ApiSetDeadline 5%Z; ApiClose;
                          ApiLocalAddr; ApiClose] exclusiveConn)
                [None; Some errChannel])
     = Done (tt, exclusiveConn).
Proof.
  split; [reflexivity|].
  exact (proj2 (proj2 (proj2 (proj2 (proj2 (exclusive_set_once
           scripted (SshConn 3) (SshChannel 7) [])))))
           [ApiRead [x00]; ApiSetDeadline 5%Z; ApiClose; ApiLocalAddr; ApiClose]
           exclusiveConn [None; Some errChannel] eq_refl).
Defined.

(** ** Closing twice *)

(** C10, as stated, fails: it would have every second [Close] that follows
    a successful one return a non-nil error.  Here every close succeeds
    both times and the second [Close] returns [nil]. *)
Lemma second_close_may_return_nil :
  ~ (forall (W : Type) (h : handler W) (c : ChConn) (w : W)
            (e1 e2 : error) (c' : ChConn),
        mu c = false ->
        outcome (run h (then_ Close Close c) w) = Done (e1, e2, c') ->
        e1 = None -> e2 <> None).
Proof.
  intros Hall.
  apply (Hall _ scripted sharedConn [] None None sharedConn); reflexivity.
Qed.

(** C10, amended.  A second [Close] is no guarded no-op: it issues every
    close again, and returns the aggregate of what those repeated closes
    answer; it is non-nil exactly when one of them reports an error. *)
Theorem second_close_repeats_every_close
  (W : Type) (h : handler W) (c : ChConn) (w : W) :
  mu c = false ->
  let r := run h (then_ Close Close c) w in
  let again := close_errs h c (close_world h c w) in
  calls r = close_calls c ++ close_calls c
  /\ outcome r = Done (NewAggregate (close_errs h c w), NewAggregate again, c)
  /\ (forall e, In (Some e) again ->
        NewAggregate again = Some (Aggregate (nonNils again))
        /\ In e (nonNils again))
  /\ (NewAggregate again = None <-> forall e, In e again -> e = None).
Proof.
  intros Hmu r again. subst r. rewrite (double_Close_run h c w Hmu).
  split; [reflexivity|]. split; [reflexivity|]. split.
  - intros e Hin. now apply NewAggregate_reports.
  - apply NewAggregate_nil_iff.
Qed.

(** First close clean, then the channel reports it is closed already. *)
Lemma second_close_repeats_every_close_witness :
  mu sharedConn = false
  /\ outcome (run scripted (then_ Close Close sharedConn)
                  [None; None; None; Some Sim.EOF])
     = Done (None, Some (Aggregate [Sim.EOF]), sharedConn).
Proof.
  split; [reflexivity|].
  exact (proj1 (proj2 (second_close_repeats_every_close
                         scripted sharedConn [None; None; None; Some Sim.EOF]
                         eq_refl))).
Defined.

(** ** The data path *)

Section DataPath.

Import Sim.

Variable c : ChConn.

Lemma copyBuf_pos : 0 < copyBuf.
Proof. unfold copyBuf. apply Nat.mul_pos_pos; lia. Qed.

Lemma firstn_of_taken (n : nat) (pending data : list byte) :
  n <= List.length pending ->
  firstn (Z.to_nat (Z.of_nat n)) (firstn n pending ++ skipn n data)
  = firstn n pending.
Proof.
  intros Hn. rewrite Nat2Z.id.
  rewrite firstn_app, firstn_firstn, Nat.min_id, firstn_length_le by exact Hn.
  rewrite Nat.sub_diag. cbn. apply app_nil_r.
Qed.

Lemma concat_snoc (got : list (list byte)) (chunk : list byte) :
  List.concat (got ++ [chunk]) = List.concat got ++ chunk.
Proof. rewrite concat_app. cbn. now rewrite app_nil_r. Qed.

(** What one [Read] on the read end does to a live pipe. *)
Lemma caller_read_live (buf : list byte) (s : state) (got : list (list byte)) :
  reader c = readEnd -> live s ->
  caller_read c buf (s, got) =
    match inpipe s with
    | [] => (s, got ++ [[]])
    | _ :: _ =>
        let n := Nat.min (List.length buf) (List.length (inpipe s)) in
        (set_data (sent s) (inchan s) (skipn n (inpipe s)) s,
         got ++ [firstn n (inpipe s)])
    end.
Proof.
  intros Hr (Hcp & Hrc & Hwc & Hcc).
  unfold caller_read, Read, bind, self, ext. cbn. rewrite Hr. cbn.
  unfold pipe_read. rewrite Hrc, Hwc.
  destruct (inpipe s) as [|b rest] eqn:Hp; cbn [outcome world fst snd].
  - reflexivity.
  - cbv zeta. rewrite firstn_of_taken by apply Nat.le_min_r. reflexivity.
Qed.

Lemma caller_read_conserved (buf : list byte) (g : config) :
  conserved g -> conserved (caller_read c buf g).
Proof.
  destruct g as [s got]. unfold conserved, received. cbn [fst snd].
  intros Hc.
  unfold caller_read, Read, bind, self, ext. cbn.
  destruct (netConn_eqb (reader c) readEnd); cbn.
  2:{ now rewrite concat_snoc, app_nil_r. }
  unfold pipe_read.
  destruct (rclosed s); cbn.
  1:{ now rewrite concat_snoc, app_nil_r. }
  destruct (wclosed s); cbn.
  1:{ now rewrite concat_snoc, app_nil_r. }
  destruct (inpipe s) as [|b rest] eqn:Hp; cbn [outcome world fst snd].
  - rewrite Hp, concat_snoc. cbn. now rewrite app_nil_r.
  - cbv zeta. rewrite firstn_of_taken by apply Nat.le_min_r.
    cbn [inpipe inchan sent set_data].
    rewrite concat_snoc, <- app_assoc.
    rewrite (app_assoc (firstn _ _)), firstn_skipn. exact Hc.
Qed.

Lemma step_conserved (a : action) (g : config) :
  conserved g -> conserved (step c g a).
Proof.
  destruct a as [bs|n|buf]; cbn [step].
  - destruct g as [s got]. unfold conserved, received, peer_write.
    cbn [fst snd]. intros Hc.
    destruct (chclosed s); [exact Hc|]. cbn.
    now rewrite <- Hc, !app_assoc.
  - destruct g as [s got]. unfold conserved, received, copy_turn.
    cbn [fst snd]. intros Hc.
    destruct (copying s && pipe_open s && negb (chclosed s)); [|exact Hc].
    destruct (inpipe s) as [|b rest] eqn:Hp; [|now rewrite Hp].
    cbn. rewrite firstn_skipn. exact Hc.
  - apply caller_read_conserved.
Qed.

Lemma exec_conserved (sched : list action) (g : config) :
  conserved g -> conserved (exec c sched g).
Proof.
  revert g. unfold exec.
  induction sched as [|a sched IH]; intros g Hc; cbn [fold_left].
  - exact Hc.
  - apply IH, step_conserved, Hc.
Qed.

Hypothesis on_read_end : reader c = readEnd.

Lemma live_guard (s : state) :
  live s -> copying s && pipe_open s && negb (chclosed s) = true.
Proof.
  intros (Hcp & Hrc & Hwc & Hcc). unfold pipe_open.
  now rewrite Hcp, Hrc, Hwc, Hcc.
Qed.

(** A step keeps a live connection live and adds to [sent] just what the
    peer wrote in it. *)
Lemma step_live (a : action) (s : state) (got : list (list byte)) :
  live s ->
  live (fst (step c (s, got) a))
  /\ sent (fst (step c (s, got) a)) = sent s ++ written [a].
Proof.
  intros Hl. destruct a as [bs|n|buf]; cbn [step fst snd written].
  - unfold peer_write. destruct Hl as (Hcp & Hrc & Hwc & Hcc).
    rewrite Hcc. cbn. rewrite app_nil_r. now repeat split.
  - unfold copy_turn. rewrite (live_guard Hl), app_nil_r.
    destruct (inpipe s); [|now split]. cbn. now split.
  - rewrite (caller_read_live buf got on_read_end Hl), app_nil_r.
    destruct (inpipe s); [now split|]. cbn. now split.
Qed.

Lemma written_app (s1 s2 : list action) :
  written (s1 ++ s2) = written s1 ++ written s2.
Proof.
  induction s1 as [|[bs|n|buf] s1 IH]; cbn; [reflexivity | | exact IH | exact IH].
  now rewrite IH, app_assoc.
Qed.

Lemma exec_live (sched : list action) (s : state) (got : list (list byte)) :
  live s ->
  live (fst (exec c sched (s, got)))
  /\ sent (fst (exec c sched (s, got))) = sent s ++ written sched.
Proof.
  revert s got. unfold exec.
  induction sched as [|a sched IH]; intros s got Hl; cbn [fold_left].
  - cbn. now rewrite app_nil_r.
  - destruct (step_live a got Hl) as [Hl1 Hs1].
    destruct (step c (s, got) a) as [s1 got1] eqn:Hst. cbn [fst] in *.
    destruct (IH s1 got1 Hl1) as [Hl2 Hs2]. split; [exact Hl2|].
    rewrite Hs2, Hs1. change (a :: sched) with ([a] ++ sched).
    now rewrite written_app, app_assoc.
Qed.

(** The goroutine's turn followed by a Read with a non-empty buffer:
    nothing new is sent, and the backlog shrinks unless it was empty. *)
Lemma turn_shrinks (buf : list byte) (s : state) (got : list (list byte)) :
  buf <> [] -> live s ->
  let g := caller_read c buf (copy_turn copyBuf s, got) in
  live (fst g) /\ sent (fst g) = sent s /\ backlog (fst g) <= backlog s - 1.
Proof.
  intros Hbuf Hl.
  assert (Hb : 0 < List.length buf) by (destruct buf; [congruence | cbn; lia]).
  pose proof copyBuf_pos as Hcb.
  assert (Hl1 : live (copy_turn copyBuf s)).
  { unfold copy_turn. rewrite (live_guard Hl). now destruct (inpipe s). }
  cbv zeta. rewrite (caller_read_live buf got on_read_end Hl1).
  unfold copy_turn. rewrite (live_guard Hl). unfold backlog.
  destruct (inpipe s) as [|b rest] eqn:Hp.
  - cbn [inpipe inchan sent set_data List.length].
    set (m := Nat.min copyBuf (Nat.min copyBuf (List.length (inchan s)))).
    destruct (firstn m (inchan s)) as [|x xs] eqn:Hf.
    + cbn [fst inpipe inchan sent set_data List.length].
      split; [exact Hl|]. split; [reflexivity|].
      assert (Hlen : List.length (firstn m (inchan s)) = 0) by now rewrite Hf.
      rewrite length_firstn in Hlen. rewrite length_skipn. lia.
    + cbv zeta. cbn [fst inpipe inchan sent set_data].
      split; [exact Hl|]. split; [reflexivity|].
      assert (Hlen : List.length (firstn m (inchan s)) = List.length (x :: xs))
        by now rewrite Hf.
      rewrite length_firstn in Hlen.
      rewrite !length_skipn. cbn [List.length] in *. lia.
  - rewrite Hp. cbv zeta. cbn [fst inpipe inchan sent set_data].
    split; [exact Hl|]. split; [reflexivity|].
    rewrite length_skipn. cbn [List.length]. lia.
Qed.

(** Taking turns long enough empties channel and pipe. *)
Lemma pump_drains (buf : list byte) (k : nat) (s : state)
      (got : list (list byte)) :
  buf <> [] -> live s -> backlog s <= k ->
  let g := exec c (pump buf k) (s, got) in
  inpipe (fst g) = [] /\ inchan (fst g) = []
  /\ live (fst g) /\ sent (fst g) = sent s.
Proof.
  intros Hbuf. revert s got.
  induction k as [|k IH]; intros s got Hl Hk; cbv zeta.
  - cbn. unfold backlog in Hk.
    destruct (inpipe s), (inchan s); cbn in Hk; try lia.
    split; [reflexivity|]. split; [reflexivity|]. split; [exact Hl|reflexivity].
  - cbn [pump]. unfold exec. cbn [fold_left step fst snd].
    destruct (turn_shrinks got Hbuf Hl) as (Hl1 & Hs1 & Hb1).
    destruct (caller_read c buf (copy_turn copyBuf s, got)) as [s1 got1].
    cbn [fst] in *.
    destruct (IH s1 got1 Hl1 ltac:(lia)) as (H1 & H2 & H3 & H4).
    unfold exec in *.
    split; [exact H1|]. split; [exact H2|]. split; [exact H3|congruence].
Qed.

End DataPath.

Lemma dial_run (cn : sshConn) (ch : sshChannel) (excl : bool) :
  Sim.dial cn ch excl =
    mkRun (Done (Sim.dialled cn ch excl)) Sim.started
          [NetPipe; GoIoCopy Sim.writeEnd ch].
Proof. reflexivity. Qed.

Lemma started_live : Sim.live Sim.started.
Proof. now repeat split. Qed.

(** C4. A ChConn built by [newChConn] over the simulated channel and pipe,
    under any schedule of peer writes, turns of the copy goroutine and
    caller Reads with buffers of any size: at every moment the bytes the
    caller's Reads returned, followed by those waiting in the pipe and those
    waiting in the channel, are exactly the bytes the peer wrote, in order;
    and once the goroutine and Reads with any non-empty buffer have taken
    enough turns, the caller has received exactly what the peer wrote. *)
Theorem reads_deliver_what_the_peer_wrote
  (cn : sshConn) (ch : sshChannel) (excl : bool)
  (sched : list Sim.action) (buf : list byte) :
  buf <> [] ->
  let d := Sim.dial cn ch excl in
  let c := Sim.dialled cn ch excl in
  let g := Sim.exec c sched (world d, []) in
  let g' := Sim.exec c (Sim.pump buf (Sim.backlog (fst g))) g in
  outcome d = Done c
  /\ calls d = [NetPipe; GoIoCopy (writer c) ch]
  /\ Sim.sent (fst g) = Sim.written sched
  /\ Sim.received g ++ Sim.inpipe (fst g) ++ Sim.inchan (fst g)
     = Sim.written sched
  /\ Sim.sent (fst g') = Sim.written sched
  /\ Sim.received g' = Sim.written sched.
Proof.
  intros Hbuf. cbv zeta. rewrite dial_run. cbn [world outcome calls].
  set (c := Sim.dialled cn ch excl).
  set (g := Sim.exec c sched (Sim.started, [])).
  split; [reflexivity|]. split; [reflexivity|].
  assert (Hr : reader c = Sim.readEnd) by reflexivity.
  destruct (exec_live c Hr sched [] started_live) as [Hl Hs].
  cbn in Hs. fold g in Hl, Hs.
  assert (Hc : Sim.conserved g) by (apply exec_conserved; reflexivity).
  split; [exact Hs|].
  split; [unfold Sim.conserved in Hc; congruence|].
  set (g' := Sim.exec c (Sim.pump buf (Sim.backlog (fst g))) g).
  assert (Hc' : Sim.conserved g') by (apply exec_conserved, Hc).
  subst g'. destruct g as [s got]. cbn [fst] in *.
  destruct (pump_drains c Hr got Hbuf Hl (Nat.le_refl _)) as (Hp & Hi & _ & Hs').
  unfold Sim.conserved in Hc'. rewrite Hp, Hi, !app_nil_r in Hc'.
  split; congruence.
Qed.

(** The spec's scenario: the peer writes the four bytes of ping, the caller
    reads with a ten-byte buffer. *)
Lemma reads_deliver_what_the_peer_wrote_witness :
  repeat x00 10 <> []
  /\ Sim.received
       (Sim.exec (Sim.dialled (SshConn 3) (SshChannel 7) false)
          (Sim.pump (repeat x00 10)
             (Sim.backlog
                (fst (Sim.exec (Sim.dialled (SshConn 3) (SshChannel 7) false)
                        [Sim.PeerWrite [x70; x69; x6e; x67]]
                        (world (Sim.dial (SshConn 3) (SshChannel 7) false),
                         [])))))
          (Sim.exec (Sim.dialled (SshConn 3) (SshChannel 7) false)
             [Sim.PeerWrite [x70; x69; x6e; x67]]
             (world (Sim.dial (SshConn 3) (SshChannel 7) false), [])))
     = Sim.written [Sim.PeerWrite [x70; x69; x6e; x67]].
Proof.
  assert (Hbuf : repeat x00 10 <> []) by discriminate.
  split; [exact Hbuf|].
  exact (proj2 (proj2 (proj2 (proj2 (proj2
    (reads_deliver_what_the_peer_wrote
       (SshConn 3) (SshChannel 7) false
       [Sim.PeerWrite [x70; x69; x6e; x67]] Hbuf)))))).
Defined.

(** The same scenario, step by step: one Read returns the four bytes. *)
Example ping_in_one_read :
  Sim.exec (Sim.dialled (SshConn 3) (SshChannel 7) false)
    [Sim.PeerWrite [x70; x69; x6e; x67]; Sim.CopyTurn 4;
     Sim.CallerRead (repeat x00 10)]
    (Sim.started, [])
  = (Sim.mkState [x70; x69; x6e; x67] [] [] true false false false,
     [[x70; x69; x6e; x67]]).
Proof. reflexivity. Qed.

(** With Go's own pipe ends, whose Close answers nil every time, and a
    channel that answers EOF once closed, a second Close reports the
    channel alone. *)
Example double_close_in_simulation :
  outcome (run Sim.handle
             (then_ Close Close (Sim.dialled (SshConn 3) (SshChannel 7) true))
             Sim.started)
  = Done (None, Some (Aggregate [Sim.EOF]),
          Sim.dialled (SshConn 3) (SshChannel 7) true).
Proof. reflexivity. Qed.


(** * Further properties of the methods *)

(** ** Sessions *)

Section Sessions.

Variable W : Type.
Variable h : handler W.

Lemma session_cons (a : api) (ops : list api) (c : ChConn) (w : W) :
  run h (session (a :: ops) c) w =
    match outcome (run h (invoke a c) w) with
    | Done (_, c1) =>
        let r2 := run h (session ops c1) (world (run h (invoke a c) w)) in
        mkRun (outcome r2) (world r2)
              (calls (run h (invoke a c) w) ++ calls r2)
    | Halted why =>
        mkRun (Halted why) (world (run h (invoke a c) w))
              (calls (run h (invoke a c) w))
    end.
Proof.
  cbn [session]. unfold bind. rewrite run_pbind.
  now destruct (outcome (run h (invoke a c) w)) as [[[] c1]|why].
Qed.

Lemma session_cons_free (a : api) (ops : list api) (c : ChConn) (w : W) :
  mu c = false ->
  run h (session (a :: ops) c) w =
    let r2 := run h (session ops c) (world (run h (invoke a c) w)) in
    mkRun (outcome r2) (world r2) (calls_of a c ++ calls r2).
Proof.
  intros Hmu. rewrite session_cons, invoke_outcome, invoke_calls.
  destruct a; try reflexivity. now rewrite Hmu.
Qed.

Lemma session_calls_free (ops : list api) (c : ChConn) (w : W) :
  mu c = false ->
  calls (run h (session ops c) w) = flat_map (fun a => calls_of a c) ops.
Proof.
  intros Hmu. revert w. induction ops as [|a ops IH]; intros w.
  - reflexivity.
  - rewrite (session_cons_free a ops c w Hmu). cbn [calls flat_map].
    now rewrite IH.
Qed.


Lemma eqb_own (c : ChConn) :
  sshChannel_eqb (Channel c) (Channel c) = true
  /\ sshConn_eqb (conn c) (conn c) = true
  /\ Sim.netConn_eqb (reader c) (reader c) = true
  /\ Sim.netConn_eqb (writer c) (writer c) = true.
Proof.
  destruct c as [m [i] [j] ex [r] [wr]]; cbn.
  now rewrite !Nat.eqb_refl.
Qed.

Lemma calls_of_own (a : api) (c : ChConn) :
  forallb (own_call c) (calls_of a c) = true.
Proof.
  destruct (eqb_own c) as (Hch & Hcn & Hr & Hw).
  destruct a; cbn; rewrite ?Hch, ?Hcn, ?Hr, ?Hw; try reflexivity.
  unfold close_calls.
  destruct (mu c), (exclusive c); cbn;
    rewrite ?Hch, ?Hcn, ?Hr, ?Hw, ?orb_true_r; reflexivity.
Qed.

Lemma parent_closes_of (a : api) (c : ChConn) :
  mu c = false ->
  parent_closes (calls_of a c) =
    if is_close a && exclusive c then 1 else 0.
Proof.
  intros Hmu. destruct a; try reflexivity.
  cbn [calls_of is_close andb]. rewrite Hmu. unfold close_calls.
  now destruct (exclusive c).
Qed.

End Sessions.

(** X1. From a free mutex, in every environment, the calls a sequence of
    methods issues are the calls of each method one after the other, and
    those depend on the struct and the arguments alone: not on what the
    environment answered, not on what was called before.  No method looks
    at a closed state; after [Close] each one issues what it did before. *)
Theorem session_calls_fixed_by_struct
  (W : Type) (h : handler W) (ops : list api) (c : ChConn) (w : W) :
  mu c = false ->
  calls (run h (session ops c) w) = flat_map (fun a => calls_of a c) ops
  /\ (forall (W' : Type) (h' : handler W') (w' : W'),
        calls (run h' (session ops c) w') = calls (run h (session ops c) w))
  /\ (forall pre post,
        ops = pre ++ post ->
        calls (run h (session ops c) w)
        = calls (run h (session pre c) w) ++ flat_map (fun a => calls_of a c) post).
Proof.
  intros Hmu. split; [now apply session_calls_free|]. split.
  - intros W' h' w'. now rewrite !session_calls_free.
  - intros pre post ->. rewrite !session_calls_free by exact Hmu.
    apply flat_map_app.
Qed.

(** A read after a close still goes to the pipe; the script cannot stop it. *)
Lemma session_calls_fixed_by_struct_witness :
  mu sharedConn = false
  /\ calls (run scripted (session [ApiClose; ApiRead [x00]] sharedConn)
                [Some errChannel])
     = flat_map (fun a => calls_of a sharedConn) [ApiClose; ApiRead [x00]].
Proof.
  split; [reflexivity|].
  exact (proj1 (session_calls_fixed_by_struct
                  scripted [ApiClose; ApiRead [x00]] sharedConn
                  [Some errChannel] eq_refl)).
Defined.

(** X2. From a free mutex, in every environment: a session closes the
    parent connection once per [Close] it calls when the ChConn is
    exclusive, repeated Closes included, and never when it is shared. *)
Theorem session_closes_parent_once_per_Close
  (W : Type) (h : handler W) (ops : list api) (c : ChConn) (w : W) :
  mu c = false ->
  parent_closes (calls (run h (session ops c) w)) =
    if exclusive c then closes ops else 0.
Proof.
  intros Hmu. rewrite session_calls_free by exact Hmu.
  unfold parent_closes, closes.
  induction ops as [|a ops IH]; cbn [flat_map filter].
  - now destruct (exclusive c).
  - rewrite filter_app, length_app, IH.
    fold (parent_closes (calls_of a c)). rewrite parent_closes_of by exact Hmu.
    destruct (is_close a), (exclusive c); reflexivity.
Qed.

Lemma session_closes_parent_once_per_Close_witness :
  mu exclusiveConn = false
  /\ parent_closes
       (calls (run scripted
                 (session [ApiClose; ApiWrite [x00]; ApiClose] exclusiveConn)
                 []))
     = 2.
Proof.
  split; [reflexivity|].
  exact (session_closes_parent_once_per_Close
           scripted [ApiClose; ApiWrite [x00]; ApiClose] exclusiveConn []
           eq_refl).
Defined.

(** ** The mutex *)



(** ** The shape of what Close returns *)

Lemma nonNils_length (errs : list error) :
  List.length (nonNils errs) <= List.length errs.
Proof.
  induction errs as [|[e|] errs IH]; cbn; lia.
Qed.

Lemma close_errs_length (W : Type) (h : handler W) (c : ChConn) (w : W) :
  List.length (close_errs h c w) = if exclusive c then 4 else 3.
Proof. unfold close_errs. now destruct (exclusive c). Qed.

(** X4. What [Close] returns (mutex free, any environment) is [nil] or an
    aggregate: never a bare error, never an aggregate without causes.  The
    causes number at most three on a shared ChConn and at most four on an
    exclusive one, and each is an error one of the closes answered, as it
    was answered. *)
Theorem close_result_shape
  (W : Type) (h : handler W) (c : ChConn) (w : W) :
  mu c = false ->
  exists res : error,
    outcome (run h (Close c) w) = Done (res, c)
    /\ match res with
       | None => forall e, In e (close_errs h c w) -> e = None
       | Some (ErrorString _) => False
       | Some (Aggregate causes) =>
           1 <= List.length causes
           /\ List.length causes <= (if exclusive c then 4 else 3)
           /\ (forall e, In e causes -> In (Some e) (close_errs h c w))
       end.
Proof.
  intros Hmu. rewrite (Close_run h c w Hmu). cbn [outcome].
  exists (NewAggregate (close_errs h c w)). split; [reflexivity|].
  destruct (NewAggregate (close_errs h c w)) as [[msg|causes]|] eqn:Hagg.
  - unfold NewAggregate in Hagg.
    destruct (nonNils (close_errs h c w)); discriminate.
  - unfold NewAggregate in Hagg.
    pose proof (nonNils_length (close_errs h c w)) as Hlen.
    rewrite close_errs_length in Hlen.
    destruct (nonNils (close_errs h c w)) as [|e es] eqn:Hnn; [discriminate|].
    injection Hagg as <-. split; [cbn; lia|]. split; [exact Hlen|].
    intros e' Hin. apply nonNils_In. now rewrite Hnn.
  - now apply NewAggregate_nil_iff.
Qed.

Lemma close_result_shape_witness :
  mu exclusiveConn = false
  /\ exists res : error,
       outcome (run scripted (Close exclusiveConn)
                    [Some errChannel; None; None; Some errParent])
       = Done (res, exclusiveConn)
       /\ match res with
          | None =>
              forall e,
                In e (close_errs scripted exclusiveConn
                        [Some errChannel; None; None; Some errParent]) ->
                e = None
          | Some (ErrorString _) => False
          | Some (Aggregate causes) =>
              1 <= List.length causes
              /\ List.length causes
                 <= (if exclusive exclusiveConn then 4 else 3)
              /\ (forall e, In e causes ->
                    In (Some e)
                       (close_errs scripted exclusiveConn
                          [Some errChannel; None; None; Some errParent]))
          end.
Proof.
  split; [reflexivity|].
  exact (close_result_shape scripted exclusiveConn
           [Some errChannel; None; None; Some errParent] eq_refl).
Defined.



(** ** Which objects a ChConn touches *)

(** X6. In every environment and whatever the mutex, every call a session
    issues is on the ChConn's own channel, its own parent connection or its
    own pipe: a channel call names [Channel c], a parent call names
    [conn c], a read or a deadline names [reader c], a pipe close names
    [reader c] or [writer c]; and no method opens another pipe or starts
    another copy goroutine. *)
Theorem session_stays_on_own_objects
  (W : Type) (h : handler W) (ops : list api) (c : ChConn) (w : W) :
  forallb (own_call c) (calls (run h (session ops c) w)) = true.
Proof.
  revert w. induction ops as [|a ops IH]; intros w.
  - reflexivity.
  - rewrite session_cons.
    destruct (outcome (run h (invoke a c) w)) as [[[] c1]|why] eqn:Ha.
    + apply invoke_returns in Ha. subst c1. cbn [calls].
      rewrite forallb_app, invoke_calls, calls_of_own. apply IH.
    + cbn [calls]. rewrite invoke_calls. apply calls_of_own.
Qed.

(** ** Addresses *)

(** X7. [LocalAddr] and [RemoteAddr] are one call each on the parent
    connection, whose answer they return as it is; they do so after a
    [Close] as well, an exclusive one that has just closed the parent
    included: the address then is whatever the closed parent still
    answers. *)
Theorem addresses_come_from_parent
  (W : Type) (h : handler W) (c : ChConn) (w : W) :
  run h (LocalAddr c) w =
    mkRun (Done (answer h (ConnLocalAddr (conn c)) w, c))
          (after h (ConnLocalAddr (conn c)) w)
          [ConnLocalAddr (conn c)]
  /\ run h (RemoteAddr c) w =
       mkRun (Done (answer h (ConnRemoteAddr (conn c)) w, c))
             (after h (ConnRemoteAddr (conn c)) w)
             [ConnRemoteAddr (conn c)]
  /\ (mu c = false ->
      run h (then_ Close LocalAddr c) w =
        mkRun (Done (NewAggregate (close_errs h c w),
                     answer h (ConnLocalAddr (conn c)) (close_world h c w), c))
              (after h (ConnLocalAddr (conn c)) (close_world h c w))
              (close_calls c ++ [ConnLocalAddr (conn c)]))
  /\ (mu c = false ->
      run h (then_ Close RemoteAddr c) w =
        mkRun (Done (NewAggregate (close_errs h c w),
                     answer h (ConnRemoteAddr (conn c)) (close_world h c w), c))
              (after h (ConnRemoteAddr (conn c)) (close_world h c w))
              (close_calls c ++ [ConnRemoteAddr (conn c)])).
Proof.
  split; [reflexivity|]. split; [reflexivity|]. split.
  - intros Hmu. unfold then_, bind.
    rewrite run_pbind, (Close_run h c w Hmu). reflexivity.
  - intros Hmu. unfold then_, bind.
    rewrite run_pbind, (Close_run h c w Hmu). reflexivity.
Qed.

Lemma addresses_come_from_parent_witness :
  mu exclusiveConn = false
  /\ run scripted (then_ Close LocalAddr exclusiveConn) [Some errChannel]
     = mkRun (Done (Some (Aggregate [errChannel]), "local"%string,
                    exclusiveConn))
             []
             [ChannelClose (SshChannel 7); NetConnClose (NetConn 0);
              NetConnClose (NetConn 1); ConnClose (SshConn 3);
              ConnLocalAddr (SshConn 3)].
Proof.
  split; [reflexivity|].
  exact (proj1 (proj2 (proj2 (addresses_come_from_parent
                                scripted exclusiveConn [Some errChannel])))
           eq_refl).
Defined.

(** ** From the constructor to the first method *)

(** X8. What [newChConn] wires, seen from the first method on the ChConn it
    returns, in every environment: the constructor opens one pipe and
    starts the copy from the channel it was given into the pipe's second
    end; [Read] reads the pipe's first end; [Write] writes to that channel;
    the address comes from the connection it was given; [Close] closes that
    channel and both ends of that pipe, then that connection when
    exclusive, and, the mutex being fresh, returns. *)
Theorem constructor_wires_pipe_and_channel
  (W : Type) (h : handler W) (cn : sshConn) (ch : sshChannel) (excl : bool)
  (w : W) (data : list byte) :
  let ends := answer h NetPipe w in
  calls (run h (construct_then cn ch excl (Read data)) w)
  = [NetPipe; GoIoCopy (snd ends) ch; NetConnRead (fst ends) data]
  /\ calls (run h (construct_then cn ch excl (Write data)) w)
     = [NetPipe; GoIoCopy (snd ends) ch; ChannelWrite ch data]
  /\ calls (run h (construct_then cn ch excl LocalAddr) w)
     = [NetPipe; GoIoCopy (snd ends) ch; ConnLocalAddr cn]
  /\ calls (run h (construct_then cn ch excl Close) w)
     = [NetPipe; GoIoCopy (snd ends) ch; ChannelClose ch;
        NetConnClose (fst ends); NetConnClose (snd ends)]
       ++ (if excl then [ConnClose cn] else [])
  /\ exists res,
       outcome (run h (construct_then cn ch excl Close) w)
       = Done (res, mkChConn false ch cn excl (fst ends) (snd ends)).
Proof.
  intros ends.
  split; [reflexivity|]. split; [reflexivity|]. split; [reflexivity|].
  split.
  - destruct excl; reflexivity.
  - destruct excl; eexists; reflexivity.
Qed.

(** ** After Close, on the simulated pipe *)

Section AfterClose.

Import Sim.

Variable c : ChConn.
Hypothesis on_read_end : reader c = readEnd.
Hypothesis on_write_end : writer c = writeEnd.
Hypothesis mutex_free : mu c = false.

Lemma Close_tears_down (s : state) :
  world (run handle (Close c) s) = torn_down s.
Proof.
  rewrite (Close_run handle c s mutex_free). cbn [world].
  unfold close_world, w_after_conn, w_after_writer, w_after_reader,
    w_after_channel, after.
  rewrite on_read_end, on_write_end.
  destruct s as [snt ic ip cp rc wc cc].
  destruct (exclusive c), cc; reflexivity.
Qed.

Lemma Close_live_succeeds (s : state) :
  live s -> outcome (run handle (Close c) s) = Done (None, c).
Proof.
  intros (Hcp & Hrc & Hwc & Hcc).
  rewrite (Close_run handle c s mutex_free). cbn [outcome].
  unfold close_errs, err_channel, err_reader, err_writer, err_conn,
    w_after_writer, w_after_reader, w_after_channel, answer, after.
  rewrite on_read_end, on_write_end.
  destruct s as [snt ic ip cp rc wc cc]. cbn in Hcc. subst cc.
  now destruct (exclusive c).
Qed.

Lemma torn_down_step (s : state) (got : list (list byte)) (a : action) :
  fst (step c (torn_down s, got) a) = torn_down s
  /\ received (step c (torn_down s, got) a) = received (torn_down s, got).
Proof.
  destruct a as [bs|n|buf]; cbn [step fst snd].
  - split; reflexivity.
  - unfold copy_turn, pipe_open. cbn. rewrite andb_false_r. now split.
  - unfold caller_read, Read, bind, self, ext. cbn. rewrite on_read_end. cbn.
    split; [reflexivity|]. unfold received. cbn [snd].
    now rewrite concat_snoc, app_nil_r.
Qed.

Lemma torn_down_exec (sched : list action) (s : state)
      (got : list (list byte)) :
  fst (exec c sched (torn_down s, got)) = torn_down s
  /\ received (exec c sched (torn_down s, got)) = received (torn_down s, got).
Proof.
  revert got. unfold exec.
  induction sched as [|a sched IH]; intros got; cbn [fold_left].
  - now split.
  - destruct (torn_down_step s got a) as [Hst Hrc].
    destruct (step c (torn_down s, got) a) as [s1 got1]. cbn [fst] in Hst.
    subst s1. destruct (IH got1) as [H1 H2]. split; [exact H1|].
    rewrite H2. exact Hrc.
Qed.

End AfterClose.

(** X9. On the simulated channel and pipe, for a ChConn on that pipe with
    its mutex free: [Close] on a connection in use succeeds with [nil];
    after [Close], from any state, a [Read] with any buffer returns at once
    with zero bytes, the closed-pipe error and the buffer untouched,
    [SetDeadline] and [SetReadDeadline] return the closed-pipe error, and
    no schedule of peer writes, goroutine turns and Reads adds a byte to
    what the caller has received: what was still in the pipe or the channel
    is never delivered. *)
Theorem after_Close_reads_fail_and_flow_stops
  (c : ChConn) (s : Sim.state) (got : list (list byte))
  (sched : list Sim.action) (buf : list byte) (t : Time) :
  reader c = Sim.readEnd -> writer c = Sim.writeEnd -> mu c = false ->
  let closed := world (run Sim.handle (Close c) s) in
  (Sim.live s -> outcome (run Sim.handle (Close c) s) = Done (None, c))
  /\ run Sim.handle (Read buf c) closed =
       mkRun (Done (buf, (0%Z, Some Sim.ErrClosedPipe), c)) closed
             [NetConnRead (reader c) buf]
  /\ outcome (run Sim.handle (SetDeadline t c) closed)
     = Done (Some Sim.ErrClosedPipe, c)
  /\ outcome (run Sim.handle (SetReadDeadline t c) closed)
     = Done (Some Sim.ErrClosedPipe, c)
  /\ fst (Sim.exec c sched (closed, got)) = closed
  /\ Sim.received (Sim.exec c sched (closed, got)) = List.concat got.
Proof.
  intros Hr Hw Hmu closed. subst closed.
  rewrite Close_tears_down by assumption.
  split; [now apply Close_live_succeeds|].
  split; [|split; [|split; [|split]]].
  - unfold Read, bind, self, ext. cbn. rewrite Hr. reflexivity.
  - reflexivity.
  - reflexivity.
  - now apply torn_down_exec.
  - now apply torn_down_exec.
Qed.

(** Four bytes are in the pipe when the connection is closed; the Read
    that follows gets none of them. *)
Lemma after_Close_reads_fail_and_flow_stops_witness :
  reader (Sim.dialled (SshConn 3) (SshChannel 7) true) = Sim.readEnd
  /\ writer (Sim.dialled (SshConn 3) (SshChannel 7) true) = Sim.writeEnd
  /\ mu (Sim.dialled (SshConn 3) (SshChannel 7) true) = false
  /\ Sim.received
       (Sim.exec (Sim.dialled (SshConn 3) (SshChannel 7) true)
          [Sim.CopyTurn 4; Sim.CallerRead (repeat x00 10)]
          (world (run Sim.handle
                    (Close (Sim.dialled (SshConn 3) (SshChannel 7) true))
                    (Sim.mkState [x70; x69; x6e; x67] []
                                 [x70; x69; x6e; x67]
                                 true false false false)),
           []))
     = [].
Proof.
  split; [reflexivity|]. split; [reflexivity|]. split; [reflexivity|].
  exact (proj2 (proj2 (proj2 (proj2 (proj2
    (after_Close_reads_fail_and_flow_stops
       (Sim.dialled (SshConn 3) (SshChannel 7) true)
       (Sim.mkState [x70; x69; x6e; x67] [] [x70; x69; x6e; x67]
                    true false false false)
       [] [Sim.CopyTurn 4; Sim.CallerRead (repeat x00 10)]
       (repeat x00 10) 0%Z eq_refl eq_refl eq_refl)))))).
Defined.
